(** * Benefit, marginal-rate, conservation-integral and present-value
      calculators of the Missouri transitional-benefits presentation.

    Shallow embedding of the pure numeric helpers of
    [app/src/components/CtResults.tsx] ([computeBenefit], [computeMtr],
    [computeIntegral]) and [app/src/components/TwoPeriodModel.tsx]
    ([computePvBenefits], the [extCliffVal] loop and the cliff scan of
    [TheProblem]).  JavaScript numbers are modelled as exact rationals [Q];
    a [NaN] produced by reading past the end of an array is modelled as
    [None]. *)

From Stdlib Require Import ZArith QArith Qpower Qminmax Qabs Qround Lqa List Lia.
Import ListNotations.

#[local] Open Scope Q_scope.

(** ** Data model *)

(** The string-literal union ["cliff" | "phase_out" | "universal"]. *)
Inductive design : Type :=
| cliff
| phase_out
| universal.

(** ** [computeBenefit] (CtResults.tsx) *)

Definition computeBenefit (income benefitAmount threshold phaseOutRate : Q)
  (d : design) : Q :=
  match d with
  | cliff => if Qle_bool income threshold then benefitAmount else 0
  | phase_out =>
      if Qle_bool income threshold then benefitAmount
      else
        let reduced := benefitAmount - phaseOutRate * (income - threshold) in
        Qmax reduced 0
  | universal => benefitAmount
  end.

(** ** [computeMtr] (CtResults.tsx): [incomes.map], step [dy = 100],
    result multiplied by 100. *)

Definition dy : Q := 100.

Definition mtr_at (benefitAmount threshold phaseOutRate : Q) (d : design)
  (y : Q) : Q :=
  let b1 := computeBenefit y benefitAmount threshold phaseOutRate d in
  let b2 := computeBenefit (y + dy) benefitAmount threshold phaseOutRate d in
  let mtr := - (b2 - b1) / dy in
  mtr * 100.

Definition computeMtr (incomes : list Q)
  (benefitAmount threshold phaseOutRate : Q) (d : design) : list Q :=
  map (mtr_at benefitAmount threshold phaseOutRate d) incomes.

(** ** [computeIntegral] (CtResults.tsx)

    [for (i = 0; i < incomes.length - 1; i++) sum += (m / 100) * (x1 - x0)]
    with [x0 = incomes[i]], [x1 = incomes[i+1]], [m = mtrPcts[i]].  The loop
    walks the consecutive pairs of [incomes] and [mtrPcts] in step; when
    [mtrPcts] is exhausted first, [mtrPcts[i]] is [undefined] and the sum
    becomes [NaN], modelled by [None]. *)

Fixpoint integral_loop (incomes mtrPcts : list Q) (sum : Q) : option Q :=
  match incomes with
  | x0 :: ((x1 :: _) as rest) =>
      match mtrPcts with
      | m :: ms => integral_loop rest ms (sum + (m / 100) * (x1 - x0))
      | [] => None
      end
  | _ => Some sum
  end.

Definition computeIntegral (incomes mtrPcts : list Q) : option Q :=
  integral_loop incomes mtrPcts 0.

(** ** [computePvBenefits] and [extCliffVal] (TwoPeriodModel.tsx)

    [for (let t = 0; t < 1 + extensionPeriods; t++)
       pv += benefitAmount / Math.pow(1 + discountRate, t)].
    [extensionPeriods] comes from an integer slider and is a [nat];
    [pv_loop A r t n pv] runs the [n] iterations left from counter [t]. *)

Fixpoint pv_loop (benefitAmount discountRate : Q) (t n : nat) (pv : Q) : Q :=
  match n with
  | O => pv
  | S n' =>
      pv_loop benefitAmount discountRate (S t) n'
        (pv + benefitAmount / (1 + discountRate) ^ Z.of_nat t)
  end.

Definition computePvBenefits (income benefitAmount threshold : Q)
  (extensionPeriods : nat) (discountRate : Q) (extended : bool) : Q :=
  if negb extended then
    (if Qle_bool income threshold then benefitAmount else 0)
  else if Qle_bool income threshold then
    pv_loop benefitAmount discountRate 0 (1 + extensionPeriods) 0
  else 0.

(** The entry-cliff value [extCliffVal] computed in [TwoPeriodModel]'s
    [useMemo], with the same loop. *)
Definition extCliffVal (benefitAmount discountRate : Q)
  (extensionPeriods : nat) : Q :=
  pv_loop benefitAmount discountRate 0 (1 + extensionPeriods) 0.

(** The spec's sum [Σ_{t=0}^{T} benefitAmount / (1+discountRate)^t]. *)
Definition pv_spec (benefitAmount discountRate : Q) (T : nat) : Q :=
  fold_right Qplus 0
    (map (fun t => benefitAmount / (1 + discountRate) ^ Z.of_nat t)
       (seq 0 (S T))).

(** ** Cliff detection in [TheProblem] (TwoPeriodModel.tsx)

    [cliffCount = baseline.mtr.filter((m) => m > 1.0).length] and the
    labelling loop [for (let i = 1; i < earnings.length; i++)
    if (baseline.mtr[i]! > 1.0) cliffLabels.push({ x: earnings[i]!, label })].
    The label is computed from the SNAP and benefit arrays and does not
    decide whether a point is pushed, so a pushed point is recorded as its
    index and its earnings.  An [undefined] [mtr[i]] compares false. *)

Definition Qlt_bool (x y : Q) : bool := negb (Qle_bool y x).

Definition cliffCount (mtr : list Q) : nat :=
  length (filter (fun m => Qlt_bool 1 m) mtr).

Fixpoint cliff_scan_from (earnings mtr : list Q) (i n : nat) : list (nat * Q) :=
  match n with
  | O => []
  | S n' =>
      let here :=
        match nth_error mtr i, nth_error earnings i with
        | Some m, Some x => if Qlt_bool 1 m then [(i, x)] else []
        | _, _ => []
        end in
      here ++ cliff_scan_from earnings mtr (S i) n'
  end.

Definition cliffLabels (earnings mtr : list Q) : list (nat * Q) :=
  cliff_scan_from earnings mtr 1 (length earnings - 1).

(** The spec's [findCliffs grid rates 1.0]: every index with [|rate| > 1]. *)
Definition findCliffs_spec (grid rates : list Q) : list (nat * Q) :=
  flat_map
    (fun i =>
       match nth_error rates i, nth_error grid i with
       | Some m, Some x => if Qlt_bool 1 (Qabs m) then [(i, x)] else []
       | _, _ => []
       end)
    (seq 0 (length grid)).

(** The spec's unit-fraction marginal rate with step [100]. *)
Definition mtr_unit_spec (benefitAmount threshold phaseOutRate : Q)
  (d : design) (y : Q) : Q :=
  - (computeBenefit (y + 100) benefitAmount threshold phaseOutRate d
     - computeBenefit y benefitAmount threshold phaseOutRate d) / 100.

(** ** Income grids and ramp sums

    [incomeGrid y h n] is the array built by
    [for (let x = y; ...; x += h) arr.push(x)] with [n] points: the grids
    of [MtrComparison] ([incomeGrid 0 200 401]) and [TwoPeriodModel]
    ([incomeGrid 0 500 121]) are of this shape. *)

Fixpoint incomeGrid (y h : Q) (n : nat) : list Q :=
  match n with
  | O => []
  | S n' => y :: incomeGrid (y + h) h n'
  end.

Definition Qnat (n : nat) : Q := inject_Z (Z.of_nat n).

(** [ramp x = max(x, 0)], the building block of the phase-out schedule. *)
Definition ramp (x : Q) : Q := Qmax x 0.

(** [ramp_sum h y m u = Σ_{i<m} h * ramp(y + i*h - u)]: a left Riemann sum
    of a ramp whose kink is at [u], over [m] grid cells from [y]. *)
Fixpoint ramp_sum (h y : Q) (m : nat) (u : Q) : Q :=
  match m with
  | O => 0
  | S m' => h * ramp (y - u) + ramp_sum h (y + h) m' u
  end.

(** ** Chart helpers of [TheProblem] and [TheReform]

    The MTR line is drawn as [mtr.map((m) => Math.max(-1, Math.min(1, m)) * 100)]
    and the cliff markers at [earnings.filter((_, i) => mtr[i]! > 1.0)],
    each plotted at [y = 100]. *)

Definition clampPct (m : Q) : Q := Qmax (-1) (Qmin 1 m) * 100.

Fixpoint cliff_markers_from (earnings mtr : list Q) (i : nat) : list Q :=
  match earnings with
  | [] => []
  | x :: rest =>
      match nth_error mtr i with
      | Some m => if Qlt_bool 1 m then [x] else []
      | None => []
      end ++ cliff_markers_from rest mtr (S i)
  end.

Definition cliffMarkers (earnings mtr : list Q) : list Q :=
  cliff_markers_from earnings mtr 0.

(** [TheReform]'s largest one-step drop:
    [let maxStd = 0; for (let i = 1; i < a.length; i++)
       { const d = a[i - 1]! - a[i]!; if (d > maxStd) maxStd = d; }]. *)

Fixpoint max_drop_from (prev : Q) (rest : list Q) (mx : Q) : Q :=
  match rest with
  | [] => mx
  | x :: rest' =>
      let drop := prev - x in
      max_drop_from x rest' (if Qlt_bool mx drop then drop else mx)
  end.

Definition maxDrop (a : list Q) : Q :=
  match a with
  | [] => 0
  | x :: rest => max_drop_from x rest 0
  end.

(** [Math.round] on an exact number: nearest integer, halves upwards. *)
Definition mathRound (x : Q) : Q := inject_Z (Qfloor (x + (1#2))).

(** [TheReform]'s extended total at one earnings index [idx]:
    [let total = s; for (let t = 1; t <= extensionPeriods; t++)
       { const yearSnap = future_snap[String(year + t)];
         if (yearSnap) total += yearSnap[idx]!; }
     return Math.round(total * 100) / 100].
    [future] maps a year to its SNAP array ([None]: key absent); reading
    past the end of a present array gives [NaN], modelled by [None]. *)

Fixpoint ext_total_loop (future : Z -> option (list Q)) (year : Z) (idx : nat)
  (t n : nat) (total : option Q) : option Q :=
  match n with
  | O => total
  | S n' =>
      let total' :=
        match future (year + Z.of_nat t)%Z with
        | Some yearSnap =>
            match total, nth_error yearSnap idx with
            | Some a, Some v => Some (a + v)
            | _, _ => None
            end
        | None => total
        end in
      ext_total_loop future year idx (S t) n' total'
  end.

Definition extTotalAt (future : Z -> option (list Q)) (year : Z)
  (extensionPeriods : nat) (s : Q) (idx : nat) : option Q :=
  option_map (fun total => mathRound (total * 100) / 100)
    (ext_total_loop future year idx 1 extensionPeriods (Some s)).

(** ** Auxiliary facts *)

Lemma Qnat_0 : Qnat 0 == 0.
Proof. reflexivity. Qed.

Lemma Qnat_S (m : nat) : Qnat (S m) == Qnat m + 1.
Proof.
  unfold Qnat. rewrite Nat2Z.inj_succ. unfold Z.succ.
  rewrite inject_Z_plus. reflexivity.
Qed.

Lemma Qnat_nonneg (m : nat) : 0 <= Qnat m.
Proof.
  unfold Qnat. change 0 with (inject_Z 0).
  rewrite <- Zle_Qle. lia.
Qed.

Lemma ramp_pos (x : Q) : 0 <= x -> ramp x == x.
Proof.
  intros Hx. unfold ramp.
  destruct (Q.max_spec x 0) as [[H1 H2] | [H1 H2]]; rewrite H2; lra.
Qed.

Lemma ramp_neg (x : Q) : x <= 0 -> ramp x == 0.
Proof.
  intros Hx. unfold ramp.
  destruct (Q.max_spec x 0) as [[H1 H2] | [H1 H2]]; rewrite H2; lra.
Qed.

Lemma Qsq_nonneg (x : Q) : 0 <= x * x.
Proof.
  destruct (Qlt_le_dec x 0) as [H | H].
  - setoid_replace (x * x) with ((- x) * (- x)) by ring.
    apply Qmult_le_0_compat; lra.
  - apply Qmult_le_0_compat; lra.
Qed.

#[local] Instance ramp_proper : Proper (Qeq ==> Qeq) ramp.
Proof.
  intros x x' Hx. destruct (Qlt_le_dec x 0) as [H | H].
  - rewrite (ramp_neg x), (ramp_neg x'); lra.
  - rewrite (ramp_pos x), (ramp_pos x'); lra.
Qed.


(** A ramp whose kink lies at or before the first grid point: the Riemann
    sum in closed form, with [X = y + m*h - u] the distance from the kink
    to the end of the last cell. *)
Lemma ramp_sum_after_kink (h : Q) (m : nat) : forall y u,
  0 < h -> u <= y ->
  ramp_sum h y m u ==
    (1#2) * ((y + Qnat m * h - u) * (y + Qnat m * h - u) - h * (y + Qnat m * h - u))
    + (1#2) * ((y - u) * (h - (y - u))).
Proof.
  induction m as [| m IH]; intros y u Hh Hu; simpl ramp_sum.
  - rewrite Qnat_0. field.
  - rewrite (ramp_pos (y - u)) by lra.
    rewrite (IH (y + h) u Hh) by lra.
    rewrite Qnat_S. field.
Qed.

(** A ramp whose kink lies inside the grid: the Riemann sum is the closed
    form plus an error in [[0, h*h/8]]. *)
Lemma ramp_sum_bounds (h : Q) (m : nat) : forall y u,
  0 < h -> y <= u -> u <= y + Qnat m * h ->
  let X := y + Qnat m * h - u in
  (1#2) * (X * X - h * X) <= ramp_sum h y m u
  /\ ramp_sum h y m u <= (1#2) * (X * X - h * X) + (1#8) * (h * h).
Proof.
  induction m as [| m IH]; intros y u Hh Hyu Hu X; subst X; simpl ramp_sum.
  - rewrite Qnat_0 in *.
    assert (Hx : y + 0 * h - u == 0) by lra.
    rewrite Hx. split; [lra |].
    assert (0 <= h * h) by nra. lra.
  - rewrite (ramp_neg (y - u)) by lra.
    rewrite Qnat_S in *.
    destruct (Qlt_le_dec u (y + h)) as [Hlt | Hle].
    + rewrite (ramp_sum_after_kink h m (y + h) u Hh) by lra.
      set (d := y + h - u).
      assert (Hd : 0 < d <= h) by (subst d; lra).
      assert (Hx : y + (Qnat m + 1) * h - u == d + Qnat m * h) by (subst d; ring).
      rewrite Hx.
      assert (E : (y + h + Qnat m * h - u) == d + Qnat m * h) by (subst d; ring).
      rewrite E.
      assert (0 <= d * (h - d)) by nra.
      pose proof (Qsq_nonneg (h - 2 * d)) as Hsq.
      assert (d * (h - d) <= (1#4) * (h * h)) by lra.
      split; lra.
    + destruct (IH (y + h) u Hh Hle) as [H1 H2]; [lra |].
      assert (Hx : y + h + Qnat m * h - u == y + (Qnat m + 1) * h - u) by ring.
      rewrite Hx in H1, H2.
      split; lra.
Qed.

(** ** The phase-out schedule as a difference of two ramps *)

Section PhaseOutRamps.

Variables (A T r W : Q).
(** [W] is the phase-out width [A / r]. *)
Hypotheses (Hr : 0 < r) (HA : 0 <= A) (HW : r * W == A).

Lemma width_nonneg : 0 <= W.
Proof.
  destruct (Qlt_le_dec W 0) as [H | H]; [| exact H].
  exfalso.
  assert (0 < r * (- W)) by (apply Qmult_lt_0_compat; lra).
  lra.
Qed.

Lemma benefit_phase_out_ramp (x : Q) :
  computeBenefit x A T r phase_out == A - r * (ramp (x - T) - ramp (x - (T + W))).
Proof.
  pose proof width_nonneg as HW0.
  unfold computeBenefit. destruct (Qle_bool x T) eqn:E.
  - apply Qle_bool_iff in E.
    rewrite (ramp_neg (x - T)), (ramp_neg (x - (T + W))) by lra. ring.
  - assert (HxT : T < x).
    { apply Qnot_le_lt. intro H. apply Qle_bool_iff in H. congruence. }
    cbv zeta. destruct (Qlt_le_dec W (x - T)) as [Hout | Hin].
    + rewrite (ramp_pos (x - T)), (ramp_pos (x - (T + W))) by lra.
      assert (0 < r * ((x - T) - W)) by (apply Qmult_lt_0_compat; lra).
      destruct (Q.max_spec (A - r * (x - T)) 0) as [[H1 H2] | [H1 H2]];
        rewrite H2; lra.
    + rewrite (ramp_pos (x - T)), (ramp_neg (x - (T + W))) by lra.
      assert (0 <= r * (W - (x - T))) by (apply Qmult_le_0_compat; lra).
      destruct (Q.max_spec (A - r * (x - T)) 0) as [[H1 H2] | [H1 H2]];
        rewrite H2; lra.
Qed.

Lemma mtr_phase_out_ramp (y : Q) :
  mtr_at A T r phase_out y ==
    r * (ramp (y - (T - 100)) - ramp (y - T)
         - ramp (y - (T + W - 100)) + ramp (y - (T + W))).
Proof.
  unfold mtr_at. cbv zeta.
  rewrite !benefit_phase_out_ramp. unfold dy.
  setoid_replace (y + 100 - T) with (y - (T - 100)) by ring.
  setoid_replace (y + 100 - (T + W)) with (y - (T + W - 100)) by ring.
  field.
Qed.

(** [computeIntegral]'s loop over a uniform grid of [m + 1] points, for the
    phase-out design, as a combination of four ramp sums. *)
Lemma integral_loop_phase_out (h : Q) (m : nat) : forall y s,
  exists v,
    integral_loop (incomeGrid y h (S m))
      (computeMtr (incomeGrid y h (S m)) A T r phase_out) s = Some v
    /\ v == s + (r / 100) *
         (ramp_sum h y m (T - 100) - ramp_sum h y m T
          - ramp_sum h y m (T + W - 100) + ramp_sum h y m (T + W)).
Proof.
  unfold computeMtr.
  induction m as [| m IH]; intros y s.
  - exists s. split; [reflexivity | simpl; field].
  - destruct (IH (y + h) (s + mtr_at A T r phase_out y / 100 * (y + h - y)))
      as [v [Hv Heq]].
    exists v. split.
    + rewrite <- Hv. reflexivity.
    + rewrite Heq. cbn [ramp_sum].
      rewrite mtr_phase_out_ramp. field.
Qed.

End PhaseOutRamps.

Lemma Qmult_nonneg_le_one_l (r x : Q) : 0 <= r -> r <= 1 -> 0 <= x -> r * x <= x.
Proof.
  intros H0 H1 Hx.
  assert (0 <= (1 - r) * x) by (apply Qmult_le_0_compat; lra). lra.
Qed.

(** C2: conservation law for [phase_out] with [benefitAmount = 5000] and
    [threshold = 30000].  For a phase-out rate [r] in [(0, 1]] and a grid
    [0, h, 2h, ...] of uniform step [0 < h <= 100] whose last point covers
    the phase-out range [[30000, 30000 + 5000 / r]], [computeIntegral] of
    [computeMtr] is within 1% of [5000].  (The proof gives the sharper
    error bound [r * h * h / 400].) *)
Theorem phase_out_conservation (r h : Q) (n : nat) :
  0 < r -> r <= 1 -> 0 < h -> h <= 100 ->
  30000 + 5000 / r <= Qnat (n - 1) * h ->
  exists v,
    computeIntegral (incomeGrid 0 h n)
      (computeMtr (incomeGrid 0 h n) 5000 30000 r phase_out) = Some v
    /\ Qabs (v - 5000) <= (1#100) * 5000.
Proof.
  intros Hr0 Hr1 Hh0 Hh1 Hcover.
  set (W := 5000 / r) in *.
  assert (HW : r * W == 5000) by (unfold W; field; lra).
  assert (HA : 0 <= 5000) by lra.
  pose proof (width_nonneg 5000 r W Hr0 HA HW) as HW0.
  destruct n as [| m].
  { exfalso. simpl in Hcover. rewrite Qnat_0 in Hcover. lra. }
  replace (S m - 1)%nat with m in Hcover by lia.
  destruct (integral_loop_phase_out 5000 30000 r W Hr0 HA HW h m 0 0)
    as [v [Hv Heq]].
  exists v. split; [exact Hv |].
  set (L := Qnat m * h) in *.
  pose proof (ramp_sum_bounds h m 0 (30000 - 100) Hh0) as B1.
  pose proof (ramp_sum_bounds h m 0 30000 Hh0) as B2.
  pose proof (ramp_sum_bounds h m 0 (30000 + W - 100) Hh0) as B3.
  pose proof (ramp_sum_bounds h m 0 (30000 + W) Hh0) as B4.
  fold L in B1, B2, B3, B4. cbv zeta in B1, B2, B3, B4.
  destruct B1 as [B1l B1u]; [lra | lra |].
  destruct B2 as [B2l B2u]; [lra | lra |].
  destruct B3 as [B3l B3u]; [lra | lra |].
  destruct B4 as [B4l B4u]; [lra | lra |].
  set (S := ramp_sum h 0 m (30000 - 100) - ramp_sum h 0 m 30000
            - ramp_sum h 0 m (30000 + W - 100) + ramp_sum h 0 m (30000 + W)) in *.
  assert (HS : 100 * W - (1#4) * (h * h) <= S <= 100 * W + (1#4) * (h * h))
    by (unfold S; lra).
  assert (Hhh : h * h <= 100 * 100)
    by (apply Qmult_le_compat_nonneg; lra).
  assert (Hv' : v == (1#100) * (r * S)) by (rewrite Heq; field).
  assert (P1 : 0 <= r * (100 * W + 2500 - S))
    by (apply Qmult_le_0_compat; lra).
  assert (P2 : 0 <= r * (S - 100 * W + 2500))
    by (apply Qmult_le_0_compat; lra).
  pose proof (Qmult_nonneg_le_one_l r 2500 ltac:(lra) Hr1 ltac:(lra)).
  apply Qabs_Qle_condition. split; lra.
Qed.

Lemma Qle_bool_false (x y : Q) : Qle_bool x y = false -> y < x.
Proof.
  intros E. apply Qnot_le_lt. intro H. apply Qle_bool_iff in H. congruence.
Qed.

Lemma Qlt_bool_iff (x y : Q) : Qlt_bool x y = true <-> x < y.
Proof.
  unfold Qlt_bool. destruct (Qle_bool y x) eqn:E; simpl.
  - apply Qle_bool_iff in E. split; [discriminate | intro; lra].
  - apply Qle_bool_false in E. split; [intros _; exact E | reflexivity].
Qed.

Ltac ramp_split t :=
  destruct (Qlt_le_dec t 0);
  [rewrite (ramp_neg t) by lra | rewrite (ramp_pos t) by lra].

(** ** Benefit evaluator *)

(** C1: [computeBenefit] follows the three design rules: [cliff] pays
    [benefitAmount] up to and including [threshold] and [0] above it;
    [phase_out] pays [benefitAmount] up to [threshold] and above it
    [max(benefitAmount - phaseOutRate * (income - threshold), 0)];
    [universal] always pays [benefitAmount].  No range condition on the
    parameters is needed. *)
Theorem computeBenefit_designs (income benefitAmount threshold phaseOutRate : Q) :
  (income <= threshold ->
     computeBenefit income benefitAmount threshold phaseOutRate cliff = benefitAmount)
  /\ (threshold < income ->
     computeBenefit income benefitAmount threshold phaseOutRate cliff = 0)
  /\ (income <= threshold ->
     computeBenefit income benefitAmount threshold phaseOutRate phase_out = benefitAmount)
  /\ (threshold < income ->
     computeBenefit income benefitAmount threshold phaseOutRate phase_out
       == Qmax (benefitAmount - phaseOutRate * (income - threshold)) 0)
  /\ computeBenefit income benefitAmount threshold phaseOutRate universal = benefitAmount.
Proof.
  unfold computeBenefit.
  assert (Hle : income <= threshold -> Qle_bool income threshold = true)
    by (intro; apply Qle_bool_iff; assumption).
  assert (Hgt : threshold < income -> Qle_bool income threshold = false).
  { intro H. destruct (Qle_bool income threshold) eqn:E; [| reflexivity].
    apply Qle_bool_iff in E. lra. }
  repeat split; intro H.
  - rewrite (Hle H). reflexivity.
  - rewrite (Hgt H). reflexivity.
  - rewrite (Hle H). reflexivity.
  - rewrite (Hgt H). reflexivity.
Qed.

(** C10: with [benefitAmount >= 0] and [phaseOutRate >= 0], every design
    pays between [0] and [benefitAmount]. *)
Theorem computeBenefit_bounds (income benefitAmount threshold phaseOutRate : Q)
  (d : design) :
  0 <= benefitAmount -> 0 <= phaseOutRate ->
  0 <= computeBenefit income benefitAmount threshold phaseOutRate d
  /\ computeBenefit income benefitAmount threshold phaseOutRate d <= benefitAmount.
Proof.
  intros HA Hr. unfold computeBenefit.
  destruct d; [| | lra].
  - destruct (Qle_bool income threshold); lra.
  - destruct (Qle_bool income threshold) eqn:E; [lra |].
    apply Qle_bool_false in E. cbv zeta.
    assert (0 <= phaseOutRate * (income - threshold))
      by (apply Qmult_le_0_compat; lra).
    destruct (Q.max_spec (benefitAmount - phaseOutRate * (income - threshold)) 0)
      as [[H1 H2] | [H1 H2]]; rewrite H2; lra.
Qed.

(** ** Marginal-rate estimator *)

Lemma mtr_at_percent (benefitAmount threshold phaseOutRate : Q) (d : design) (y : Q) :
  mtr_at benefitAmount threshold phaseOutRate d y
  == 100 * mtr_unit_spec benefitAmount threshold phaseOutRate d y.
Proof. unfold mtr_at, mtr_unit_spec, dy. cbv zeta. field. Qed.

(** C3 (counterexample): at the cliff threshold, with [benefitAmount = 5000],
    [computeMtr] returns [5000], while the unit-fraction rate
    [-(benefit(y+100) - benefit(y)) / 100] is [50]. *)
Lemma computeMtr_not_unit_fraction :
  exists m,
    computeMtr [30000] 5000 30000 0 cliff = [m]
    /\ m == 5000
    /\ mtr_unit_spec 5000 30000 0 cliff 30000 == 50
    /\ ~ (m == mtr_unit_spec 5000 30000 0 cliff 30000).
Proof.
  eexists. split; [reflexivity |].
  split; [vm_compute; reflexivity |].
  split; [vm_compute; reflexivity |].
  vm_compute. intro H. discriminate H.
Qed.

(** C3 (amended): [computeMtr] has one entry per income, and the entry for
    income [y] is [100] times [-(benefit(y+100) - benefit(y)) / 100]: the
    step-100 forward-difference rate as a percentage. *)
Theorem computeMtr_percent (incomes : list Q)
  (benefitAmount threshold phaseOutRate : Q) (d : design) :
  length (computeMtr incomes benefitAmount threshold phaseOutRate d) = length incomes
  /\ forall i y, nth_error incomes i = Some y ->
     exists m,
       nth_error (computeMtr incomes benefitAmount threshold phaseOutRate d) i = Some m
       /\ m == 100 * (- (computeBenefit (y + 100) benefitAmount threshold phaseOutRate d
                         - computeBenefit y benefitAmount threshold phaseOutRate d) / 100).
Proof.
  unfold computeMtr. split; [apply length_map |].
  intros i y Hy. rewrite nth_error_map, Hy. simpl.
  eexists. split; [reflexivity |].
  apply (mtr_at_percent benefitAmount threshold phaseOutRate d y).
Qed.

(** C7: the universal design pays [benefitAmount] at every income and its
    marginal-rate series is [0] at every grid point. *)
Theorem universal_flat (benefitAmount threshold phaseOutRate : Q) :
  (forall income,
     computeBenefit income benefitAmount threshold phaseOutRate universal = benefitAmount)
  /\ (forall incomes,
     Forall (fun m => m == 0)
       (computeMtr incomes benefitAmount threshold phaseOutRate universal)).
Proof.
  split; [reflexivity |].
  intros incomes. apply Forall_forall. intros m Hm.
  unfold computeMtr in Hm. apply in_map_iff in Hm. destruct Hm as [y [<- _]].
  unfold mtr_at, dy. simpl. field.
Qed.

(** ** Shape of the phase-out schedule *)

Lemma ramp_diff_mono (a c x y : Q) :
  a <= c -> x <= y ->
  0 <= (ramp (y - a) - ramp (y - c)) - (ramp (x - a) - ramp (x - c))
  /\ (ramp (y - a) - ramp (y - c)) - (ramp (x - a) - ramp (x - c)) <= y - x.
Proof.
  intros Hac Hxy.
  ramp_split (y - a); ramp_split (y - c); ramp_split (x - a); ramp_split (x - c);
    split; lra.
Qed.

(** C6: for [phase_out] with [phaseOutRate > 0] and [benefitAmount >= 0]
    the benefit is non-increasing and [phaseOutRate]-Lipschitz (hence
    continuous) in income, in particular above [threshold]; it is exactly
    [0] at [threshold + benefitAmount / phaseOutRate]; with [5000], [30000],
    [0.5] it is [0] at [40000] and [2500] at [35000]. *)
Theorem phase_out_shape (benefitAmount threshold phaseOutRate : Q) :
  0 <= benefitAmount -> 0 < phaseOutRate ->
  let b x := computeBenefit x benefitAmount threshold phaseOutRate phase_out in
  (forall x y, threshold < x -> x <= y -> b y <= b x)
  /\ (forall x y, threshold < x -> threshold < y ->
        Qabs (b x - b y) <= phaseOutRate * Qabs (x - y))
  /\ (forall x eps, threshold < x -> 0 < eps ->
        exists delta, 0 < delta /\
          forall y, threshold < y -> Qabs (y - x) < delta -> Qabs (b y - b x) < eps)
  /\ b (threshold + benefitAmount / phaseOutRate) == 0
  /\ computeBenefit 40000 5000 30000 (1#2) phase_out == 0
  /\ computeBenefit 35000 5000 30000 (1#2) phase_out == 2500.
Proof.
  intros HA Hr b.
  set (W := benefitAmount / phaseOutRate).
  assert (HW : phaseOutRate * W == benefitAmount) by (unfold W; field; lra).
  pose proof (width_nonneg benefitAmount phaseOutRate W Hr HA HW) as HW0.
  pose proof (benefit_phase_out_ramp benefitAmount threshold phaseOutRate W Hr HA HW)
    as Hb.
  (* the Lipschitz bound, for ordered incomes *)
  assert (Hlip : forall x y, x <= y ->
            0 <= b x - b y /\ b x - b y <= phaseOutRate * (y - x)).
  { intros x y Hxy. unfold b. rewrite !Hb.
    destruct (ramp_diff_mono threshold (threshold + W) x y ltac:(lra) Hxy)
      as [D1 D2].
    set (D := (ramp (y - threshold) - ramp (y - (threshold + W)))
              - (ramp (x - threshold) - ramp (x - (threshold + W)))) in *.
    assert (P1 : 0 <= phaseOutRate * D) by (apply Qmult_le_0_compat; lra).
    assert (P2 : 0 <= phaseOutRate * ((y - x) - D))
      by (apply Qmult_le_0_compat; lra).
    unfold D in P1, P2. split; lra. }
  assert (Hlip2 : forall x y, Qabs (b x - b y) <= phaseOutRate * Qabs (x - y)).
  { intros x y. destruct (Qlt_le_dec x y) as [Hxy | Hyx].
    - destruct (Hlip x y ltac:(lra)) as [L1 L2].
      rewrite (Qabs_pos (b x - b y)) by lra.
      rewrite (Qabs_neg (x - y)) by lra. lra.
    - destruct (Hlip y x Hyx) as [L1 L2].
      rewrite (Qabs_neg (b x - b y)) by lra.
      rewrite (Qabs_pos (x - y)) by lra. lra. }
  split; [| split; [| split; [| split]]].
  - intros x y _ Hxy. destruct (Hlip x y Hxy). lra.
  - intros x y _ _. apply Hlip2.
  - intros x eps _ Heps. exists (eps / phaseOutRate). split.
    + apply Qlt_shift_div_l; lra.
    + intros y _ Hy.
      assert (Hm : phaseOutRate * Qabs (y - x) < phaseOutRate * (eps / phaseOutRate))
        by (apply Qmult_lt_l; assumption).
      assert (E : phaseOutRate * (eps / phaseOutRate) == eps) by (field; lra).
      pose proof (Hlip2 y x). lra.
  - unfold b. rewrite Hb.
    setoid_replace (threshold + W - threshold) with W by ring.
    setoid_replace (threshold + W - (threshold + W)) with 0 by ring.
    rewrite (ramp_pos W) by lra. rewrite (ramp_pos 0) by lra. lra.
  - split; reflexivity.
Qed.

(** ** Present-value extender *)

Lemma pv_loop_acc (benefitAmount discountRate : Q) (n : nat) : forall t pv,
  pv_loop benefitAmount discountRate t n pv
  == pv + fold_right Qplus 0
            (map (fun t => benefitAmount / (1 + discountRate) ^ Z.of_nat t)
               (seq t n)).
Proof.
  induction n as [| n IH]; intros t pv; simpl.
  - ring.
  - rewrite IH. ring.
Qed.

Lemma pv_loop_snoc (benefitAmount discountRate : Q) (n : nat) : forall t pv,
  pv_loop benefitAmount discountRate t (S n) pv
  == pv_loop benefitAmount discountRate t n pv
     + benefitAmount / (1 + discountRate) ^ Z.of_nat (t + n).
Proof.
  induction n as [| n IH]; intros t pv.
  - simpl. rewrite Nat.add_0_r. reflexivity.
  - change (pv_loop benefitAmount discountRate t (S (S n)) pv)
      with (pv_loop benefitAmount discountRate (S t) (S n)
              (pv + benefitAmount / (1 + discountRate) ^ Z.of_nat t)).
    rewrite IH. rewrite Nat.add_succ_r. reflexivity.
Qed.

(** C4: in extended mode, [computePvBenefits] is the discounted sum
    [Σ_{t=0}^{extensionPeriods} benefitAmount / (1+discountRate)^t] at or
    below [threshold] and [0] above it; with [extensionPeriods = 0] and
    [income <= threshold] it is exactly [benefitAmount].  No range
    condition on the parameters is needed. *)
Theorem computePvBenefits_extended (income benefitAmount threshold : Q)
  (extensionPeriods : nat) (discountRate : Q) :
  (income <= threshold ->
     computePvBenefits income benefitAmount threshold extensionPeriods discountRate true
     == pv_spec benefitAmount discountRate extensionPeriods)
  /\ (threshold < income ->
     computePvBenefits income benefitAmount threshold extensionPeriods discountRate true
     == 0)
  /\ (income <= threshold ->
     computePvBenefits income benefitAmount threshold 0 discountRate true
     == benefitAmount).
Proof.
  unfold computePvBenefits. simpl negb.
  split; [| split]; intro H.
  - apply Qle_bool_iff in H. rewrite H.
    rewrite pv_loop_acc. unfold pv_spec. rewrite Qplus_0_l. reflexivity.
  - destruct (Qle_bool income threshold) eqn:E; [| reflexivity].
    apply Qle_bool_iff in E. lra.
  - apply Qle_bool_iff in H. rewrite H. simpl. field.
Qed.

(** C8: for [benefitAmount >= 0], [discountRate >= 0] and
    [income <= threshold], one more extension period never lowers the
    present value. *)
Theorem computePvBenefits_mono (income benefitAmount threshold : Q)
  (T : nat) (discountRate : Q) :
  0 <= benefitAmount -> 0 <= discountRate -> income <= threshold ->
  computePvBenefits income benefitAmount threshold T discountRate true
  <= computePvBenefits income benefitAmount threshold (S T) discountRate true.
Proof.
  intros HA Hd Hinc. unfold computePvBenefits. simpl negb.
  apply Qle_bool_iff in Hinc. rewrite Hinc.
  replace (1 + S T)%nat with (S (1 + T)) by lia.
  rewrite pv_loop_snoc.
  assert (0 < (1 + discountRate) ^ Z.of_nat (0 + (1 + T)))
    by (apply Qpower_0_lt; lra).
  assert (0 <= benefitAmount / (1 + discountRate) ^ Z.of_nat (0 + (1 + T))).
  { apply Qmult_le_0_compat; [assumption |].
    apply Qinv_le_0_compat. lra. }
  lra.
Qed.

(** C9 (counterexample): with [extensionPeriods = 3], [discountRate = 0.05]
    and [benefitAmount = 5000] the entry cliff exceeds [18594] by more
    than [22]. *)
Lemma extCliffVal_not_18594 :
  18594 + 22 < extCliffVal 5000 (5#100) 3.
Proof. vm_compute. reflexivity. Qed.

(** C9 (amended): that entry cliff is
    [5000 * (1 + 1/1.05 + 1/1.05^2 + 1/1.05^3)], which lies between
    [18616] and [18617]. *)
Theorem extCliffVal_example :
  extCliffVal 5000 (5#100) 3
    == 5000 * (1 + 1 / (105#100) + 1 / ((105#100) * (105#100))
               + 1 / ((105#100) * (105#100) * (105#100)))
  /\ 18616 <= extCliffVal 5000 (5#100) 3
  /\ extCliffVal 5000 (5#100) 3 < 18617.
Proof.
  split; [vm_compute; reflexivity |].
  split; [apply Qle_bool_iff; vm_compute; reflexivity | vm_compute; reflexivity].
Qed.

(** ** Cliff detection *)

Lemma cliff_scan_from_spec (earnings mtr : list Q) (n : nat) : forall j i x,
  In (i, x) (cliff_scan_from earnings mtr j n)
  <-> (j <= i < j + n)%nat /\ nth_error earnings i = Some x
      /\ exists m, nth_error mtr i = Some m /\ 1 < m.
Proof.
  induction n as [| n IH]; intros j i x; simpl.
  - split; [contradiction | lia].
  - rewrite in_app_iff, IH. split.
    + intros [Hh | [Hr Ht]].
      * destruct (nth_error mtr j) as [m |] eqn:Em; [| contradiction].
        destruct (nth_error earnings j) as [x' |] eqn:Ee; [| contradiction].
        destruct (Qlt_bool 1 m) eqn:Elt; [| contradiction].
        destruct Hh as [Hh | []]. inversion Hh; subst.
        split; [lia |]. split; [assumption |].
        exists m. split; [assumption | apply Qlt_bool_iff; assumption].
      * split; [lia | exact Ht].
    + intros [Hr [He [m [Hm Hlt]]]].
      destruct (Nat.eq_dec i j) as [-> | Hne].
      * left. rewrite Hm, He. apply Qlt_bool_iff in Hlt. rewrite Hlt.
        left. reflexivity.
      * right. split; [lia |]. split; [assumption |]. exists m. auto.
Qed.

(** C5 (counterexample): the scan compares the signed rate and starts at
    index 1: a rate of [-1.5] at index 1, or of [1.5] at index 0, is not
    reported, while the spec's [|rate| > 1] detector reports both; the
    cliff count also ignores [-1.5]. *)
Lemma cliffLabels_not_findCliffs :
  cliffLabels [0; 100] [0; -(3#2)] = []
  /\ findCliffs_spec [0; 100] [0; -(3#2)] = [(1%nat, 100)]
  /\ cliffLabels [0; 100] [3#2; 0] = []
  /\ findCliffs_spec [0; 100] [3#2; 0] = [(0%nat, 0)]
  /\ cliffCount [0; -(3#2)] = 0%nat.
Proof. repeat split; reflexivity. Qed.

(** C5 (amended): the cliff scan of [TheProblem] reports the point
    [(i, earnings[i])] exactly when [1 <= i < earnings.length] and
    [mtr[i] > 1.0], a signed comparison. *)
Theorem cliffLabels_spec (earnings mtr : list Q) (i : nat) (x : Q) :
  In (i, x) (cliffLabels earnings mtr)
  <-> (1 <= i)%nat /\ nth_error earnings i = Some x
      /\ exists m, nth_error mtr i = Some m /\ 1 < m.
Proof.
  unfold cliffLabels. rewrite cliff_scan_from_spec. split.
  - intros [Hr H]. split; [lia | exact H].
  - intros [Hi [He Hm]]. split; [| split; assumption].
    assert (i < length earnings)%nat
      by (apply nth_error_Some; rewrite He; discriminate).
    lia.
Qed.

(** ** Witnesses: each theorem with hypotheses applied at a concrete input *)

Ltac qdec :=
  first [ reflexivity
        | apply Qle_bool_iff; vm_compute; reflexivity
        | vm_compute; reflexivity ].

Lemma computeBenefit_designs_witness :
  computeBenefit 20000 5000 30000 (1#2) cliff = 5000
  /\ computeBenefit 35000 5000 30000 (1#2) phase_out
     == Qmax (5000 - (1#2) * (35000 - 30000)) 0.
Proof.
  destruct (computeBenefit_designs 20000 5000 30000 (1#2)) as [H1 _].
  destruct (computeBenefit_designs 35000 5000 30000 (1#2)) as [_ [_ [_ [H4 _]]]].
  split; [apply H1; qdec | apply H4; qdec].
Defined.

Lemma phase_out_conservation_witness :
  (0 < 1#2 /\ 30000 + 5000 / (1#2) <= Qnat (401 - 1) * 100)
  /\ exists v,
       computeIntegral (incomeGrid 0 100 401)
         (computeMtr (incomeGrid 0 100 401) 5000 30000 (1#2) phase_out) = Some v
       /\ Qabs (v - 5000) <= (1#100) * 5000.
Proof.
  split; [split; qdec |].
  apply (phase_out_conservation (1#2) 100 401); qdec.
Defined.

Lemma computeMtr_percent_witness :
  exists m,
    nth_error (computeMtr [30000] 5000 30000 0 cliff) 0 = Some m
    /\ m == 100 * (- (computeBenefit (30000 + 100) 5000 30000 0 cliff
                      - computeBenefit 30000 5000 30000 0 cliff) / 100).
Proof.
  apply (proj2 (computeMtr_percent [30000] 5000 30000 0 cliff) 0%nat 30000).
  reflexivity.
Defined.

Lemma computePvBenefits_extended_witness :
  computePvBenefits 20000 5000 30000 3 (5#100) true == pv_spec 5000 (5#100) 3
  /\ computePvBenefits 40000 5000 30000 3 (5#100) true == 0
  /\ computePvBenefits 30000 5000 30000 0 (5#100) true == 5000.
Proof.
  destruct (computePvBenefits_extended 20000 5000 30000 3 (5#100)) as [H1 _].
  destruct (computePvBenefits_extended 40000 5000 30000 3 (5#100)) as [_ [H2 _]].
  destruct (computePvBenefits_extended 30000 5000 30000 3 (5#100)) as [_ [_ H3]].
  split; [apply H1; qdec | split; [apply H2; qdec | apply H3; qdec]].
Defined.

Lemma cliffLabels_spec_witness :
  In (2%nat, 200) (cliffLabels [0; 100; 200] [0; 0; 3#2]).
Proof.
  apply (proj2 (cliffLabels_spec [0; 100; 200] [0; 0; 3#2] 2 200)).
  split; [lia |]. split; [reflexivity |].
  exists (3#2). split; [reflexivity | qdec].
Defined.

Lemma phase_out_shape_witness :
  computeBenefit (30000 + 5000 / (1#2)) 5000 30000 (1#2) phase_out == 0
  /\ computeBenefit 35000 5000 30000 (1#2) phase_out == 2500.
Proof.
  pose proof (phase_out_shape 5000 30000 (1#2) ltac:(qdec) ltac:(qdec)) as H.
  cbv beta zeta in H.
  destruct H as [_ [_ [_ [H4 [_ H6]]]]].
  split; [exact H4 | exact H6].
Defined.

Lemma computePvBenefits_mono_witness :
  computePvBenefits 20000 5000 30000 3 (5#100) true
  <= computePvBenefits 20000 5000 30000 4 (5#100) true.
Proof. apply (computePvBenefits_mono 20000 5000 30000 3 (5#100)); qdec. Defined.

Lemma computeBenefit_bounds_witness :
  0 <= computeBenefit 35000 5000 30000 (1#2) phase_out
  /\ computeBenefit 35000 5000 30000 (1#2) phase_out <= 5000.
Proof. apply (computeBenefit_bounds 35000 5000 30000 (1#2) phase_out); qdec. Defined.

(** ** Further properties of the calculators *)


(** The per-point marginal rate of the [cliff] design (in percent): a
    spike of [benefitAmount] at incomes in [(threshold - 100, threshold]],
    [0] everywhere else. *)
Theorem cliff_mtr_spike (A T r y : Q) :
  (T < y + 100 -> y <= T -> mtr_at A T r cliff y == A)
  /\ (T < y \/ y + 100 <= T -> mtr_at A T r cliff y == 0).
Proof.
  unfold mtr_at, computeBenefit, dy. cbv zeta.
  split.
  - intros H1 H2.
    assert (E1 : Qle_bool y T = true) by (apply Qle_bool_iff; exact H2).
    destruct (Qle_bool (y + 100) T) eqn:E2.
    + apply Qle_bool_iff in E2. lra.
    + rewrite E1. field.
  - intros [H | H].
    + destruct (Qle_bool y T) eqn:E1.
      { apply Qle_bool_iff in E1. lra. }
      destruct (Qle_bool (y + 100) T) eqn:E2.
      { apply Qle_bool_iff in E2. lra. }
      field.
    + assert (E1 : Qle_bool y T = true) by (apply Qle_bool_iff; lra).
      assert (E2 : Qle_bool (y + 100) T = true) by (apply Qle_bool_iff; lra).
      rewrite E1, E2. field.
Qed.

(** The per-point marginal rate of the [phase_out] design (in percent):
    [100 * phaseOutRate] while both [y] and [y + 100] are in the phase-out
    range, [0] when both are at or below [threshold] or both at or past its
    end. *)
Theorem phase_out_mtr_rate (A T r y : Q) :
  0 <= A -> 0 < r ->
  (T <= y -> y + 100 <= T + A / r -> mtr_at A T r phase_out y == 100 * r)
  /\ (y + 100 <= T -> mtr_at A T r phase_out y == 0)
  /\ (T + A / r <= y -> mtr_at A T r phase_out y == 0).
Proof.
  intros HA Hr.
  set (W := A / r).
  assert (HW : r * W == A) by (unfold W; field; lra).
  pose proof (width_nonneg A r W Hr HA HW) as HW0.
  rewrite !(mtr_phase_out_ramp A T r W Hr HA HW y).
  split; [| split]; intros H1; [intros H2 |  |].
  - rewrite (ramp_pos (y - (T - 100))), (ramp_pos (y - T)),
      (ramp_neg (y - (T + W - 100))), (ramp_neg (y - (T + W))) by lra.
    ring.
  - rewrite (ramp_neg (y - (T - 100))), (ramp_neg (y - T)),
      (ramp_neg (y - (T + W - 100))), (ramp_neg (y - (T + W))) by lra.
    ring.
  - rewrite (ramp_pos (y - (T - 100))), (ramp_pos (y - T)),
      (ramp_pos (y - (T + W - 100))), (ramp_pos (y - (T + W))) by lra.
    ring.
Qed.

Lemma integral_loop_zero_rates (f : Q -> Q) (l : list Q) : forall s,
  (forall x, In x l -> f x == 0) ->
  exists v, integral_loop l (map f l) s = Some v /\ v == s.
Proof.
  induction l as [| x rest IH]; intros s Hf.
  - exists s. split; reflexivity.
  - destruct rest as [| y rest'].
    + exists s. split; reflexivity.
    + destruct (IH (s + f x / 100 * (y - x))) as [v [Hv Heq]].
      { intros z Hz. apply Hf. right. exact Hz. }
      exists v. split; [exact Hv |].
      rewrite Heq. rewrite (Hf x) by (left; reflexivity). field.
Qed.

(** The [universal] design's conservation integral is [0] on every grid. *)
Theorem universal_integral_zero (incomes : list Q) (A T r : Q) :
  exists v,
    computeIntegral incomes (computeMtr incomes A T r universal) = Some v
    /\ v == 0.
Proof.
  apply integral_loop_zero_rates.
  intros x _. unfold mtr_at, dy. simpl. field.
Qed.

(** [computeIntegral] gives [NaN] exactly when the rate array is shorter
    than the [incomes.length - 1] cells it reads; otherwise it returns a
    number (in particular for an empty or one-point grid it returns 0). *)
Theorem computeIntegral_nan_iff (incomes mtrPcts : list Q) :
  computeIntegral incomes mtrPcts = None
  <-> (length mtrPcts < length incomes - 1)%nat.
Proof.
  unfold computeIntegral. generalize 0 as s. revert mtrPcts.
  induction incomes as [| x rest IH]; intros mtrPcts s.
  - simpl. split; [discriminate | lia].
  - destruct rest as [| y rest'].
    + simpl. split; [discriminate | lia].
    + destruct mtrPcts as [| m ms].
      * simpl. split; [intros _; lia | reflexivity].
      * change (integral_loop (x :: y :: rest') (m :: ms) s)
          with (integral_loop (y :: rest') ms (s + m / 100 * (y - x))).
        rewrite IH. simpl. lia.
Qed.

Lemma integral_cliff_above (A T r h : Q) (m : nat) : forall y s,
  0 < h -> T < y ->
  exists v,
    integral_loop (incomeGrid y h (S m))
      (computeMtr (incomeGrid y h (S m)) A T r cliff) s = Some v
    /\ v == s.
Proof.
  unfold computeMtr.
  induction m as [| m IH]; intros y s Hh Hy.
  - exists s. split; reflexivity.
  - destruct (IH (y + h) (s + mtr_at A T r cliff y / 100 * (y + h - y)) Hh)
      as [v [Hv Heq]]; [lra |].
    exists v. split.
    + rewrite <- Hv. reflexivity.
    + rewrite Heq.
      destruct (cliff_mtr_spike A T r y) as [_ Z].
      rewrite (Z (or_introl Hy)). field.
Qed.

Lemma integral_cliff_grid (A T r h : Q) (k : nat) : forall m y s,
  100 <= h -> (k < m)%nat -> T == y + Qnat k * h ->
  exists v,
    integral_loop (incomeGrid y h (S m))
      (computeMtr (incomeGrid y h (S m)) A T r cliff) s = Some v
    /\ v == s + h / 100 * A.
Proof.
  unfold computeMtr.
  induction k as [| k IH]; intros m y s Hh Hkm HT;
    (destruct m as [| m]; [lia |]).
  - rewrite Qnat_0 in HT.
    destruct (integral_cliff_above A T r h m (y + h)
                (s + mtr_at A T r cliff y / 100 * (y + h - y))) as [v [Hv Heq]];
      [lra | lra |].
    exists v. split.
    + unfold computeMtr in Hv. rewrite <- Hv. reflexivity.
    + rewrite Heq.
      destruct (cliff_mtr_spike A T r y) as [S1 _].
      rewrite S1 by lra. field.
  - rewrite Qnat_S in HT.
    pose proof (Qnat_nonneg k).
    assert (0 <= Qnat k * h) by (apply Qmult_le_0_compat; lra).
    destruct (IH m (y + h) (s + mtr_at A T r cliff y / 100 * (y + h - y)))
      as [v [Hv Heq]]; [lra | lia | rewrite HT; ring |].
    exists v. split.
    + rewrite <- Hv. reflexivity.
    + rewrite Heq.
      destruct (cliff_mtr_spike A T r y) as [_ Z].
      rewrite Z by lra. field.
Qed.

(** The [cliff] design's conservation integral on a grid [0, h, 2h, ...]
    with step [h >= 100] and the threshold on an inner grid point is
    [h / 100 * benefitAmount]: on [MtrComparison]'s step-200 grid, with the
    threshold a multiple of 200, it is twice [benefitAmount]. *)
Theorem cliff_integral (A T r h : Q) (k n : nat) :
  100 <= h -> (S k < n)%nat -> T == Qnat k * h ->
  exists v,
    computeIntegral (incomeGrid 0 h n) (computeMtr (incomeGrid 0 h n) A T r cliff)
      = Some v
    /\ v == h / 100 * A.
Proof.
  intros Hh Hk HT.
  destruct n as [| m]; [lia |].
  destruct (integral_cliff_grid A T r h k m 0 0 Hh ltac:(lia)) as [v [Hv Heq]].
  { rewrite HT. ring. }
  exists v. split; [exact Hv | rewrite Heq; ring].
Qed.

(** With no extension periods the extended present-value curve coincides
    with the standard curve, which is the [cliff] benefit schedule. *)
Theorem pv_no_extension_is_standard (income A T d d' r : Q) (k : nat) :
  computePvBenefits income A T 0 d true == computePvBenefits income A T k d' false
  /\ computePvBenefits income A T k d' false = computeBenefit income A T r cliff.
Proof.
  unfold computePvBenefits, computeBenefit. simpl negb.
  split; [| reflexivity].
  destruct (Qle_bool income T); simpl; [field | reflexivity].
Qed.

(** The displayed entry cliffs are the drops of the two curves across the
    threshold: from any income at or below [threshold] to any income above
    it, the extended curve drops by exactly [extCliffVal] and the standard
    curve by [benefitAmount] ([stdCliff]). *)
Theorem entry_cliff_is_drop (y y' A T d : Q) (ext : nat) :
  y <= T -> T < y' ->
  computePvBenefits y A T ext d true - computePvBenefits y' A T ext d true
    == extCliffVal A d ext
  /\ computePvBenefits y A T ext d false - computePvBenefits y' A T ext d false == A.
Proof.
  intros Hy Hy'. unfold computePvBenefits, extCliffVal. simpl negb.
  assert (E1 : Qle_bool y T = true) by (apply Qle_bool_iff; exact Hy).
  assert (E2 : Qle_bool y' T = false).
  { destruct (Qle_bool y' T) eqn:E; [| reflexivity].
    apply Qle_bool_iff in E. lra. }
  rewrite E1, E2. split; ring.
Qed.

Lemma pv_loop_zero_rate (A : Q) (n : nat) : forall t pv,
  pv_loop A 0 t n pv == pv + Qnat n * A.
Proof.
  induction n as [| n IH]; intros t pv; simpl pv_loop.
  - rewrite Qnat_0. ring.
  - rewrite IH. rewrite Qnat_S.
    setoid_replace (1 + 0) with 1 by ring. rewrite Qpower_1. field.
Qed.

(** Without discounting the entry cliff is [benefitAmount * (1 +
    extensionPeriods)], the formula shown in [TheMath]. *)
Theorem extCliffVal_no_discount (A : Q) (ext : nat) :
  extCliffVal A 0 ext == Qnat (1 + ext) * A.
Proof. unfold extCliffVal. rewrite pv_loop_zero_rate. ring. Qed.

Lemma pv_loop_bounds (A d : Q) (n : nat) : forall t pv,
  0 <= A -> 0 <= d ->
  pv <= pv_loop A d t n pv /\ pv_loop A d t n pv <= pv + Qnat n * A.
Proof.
  induction n as [| n IH]; intros t pv HA Hd; simpl pv_loop.
  - rewrite Qnat_0. split; lra.
  - set (p := (1 + d) ^ Z.of_nat t).
    assert (Hp1 : 1 <= p) by (apply Qpower_1_le; [lra | lia]).
    assert (T0 : 0 <= A / p).
    { apply Qmult_le_0_compat; [exact HA | apply Qinv_le_0_compat; lra]. }
    assert (T1 : A / p <= A).
    { apply Qle_shift_div_r; [lra |].
      assert (0 <= A * (p - 1)) by (apply Qmult_le_0_compat; lra). lra. }
    destruct (IH (S t) (pv + A / p) HA Hd) as [L U].
    rewrite Qnat_S. split; lra.
Qed.

(** With [benefitAmount >= 0] and [discountRate >= 0] the entry cliff lies
    between [benefitAmount] and [benefitAmount * (1 + extensionPeriods)]:
    the displayed ratio [extendedCliff / standardCliff] is in
    [[1, 1 + extensionPeriods]]. *)
Theorem extCliffVal_bounds (A d : Q) (ext : nat) :
  0 <= A -> 0 <= d ->
  A <= extCliffVal A d ext /\ extCliffVal A d ext <= Qnat (1 + ext) * A.
Proof.
  intros HA Hd. unfold extCliffVal.
  change (pv_loop A d 0 (1 + ext) 0)
    with (pv_loop A d 1 ext (0 + A / (1 + d) ^ Z.of_nat 0)).
  assert (E : 0 + A / (1 + d) ^ Z.of_nat 0 == A) by (simpl; field).
  destruct (pv_loop_bounds A d ext 1 (0 + A / (1 + d) ^ Z.of_nat 0) HA Hd)
    as [L U].
  change (1 + ext)%nat with (S ext). rewrite Qnat_S. split; lra.
Qed.

(** The plotted MTR [Math.max(-1, Math.min(1, m)) * 100] always lies in
    [[-100, 100]]; it is [100 * m] for [m] in [[-1, 1]], and [100] for every
    cliff point [m > 1], so the cliff markers drawn at [y = 100] sit on the
    plotted line. *)
Theorem clampPct_props (m : Q) :
  -100 <= clampPct m /\ clampPct m <= 100
  /\ (-1 <= m -> m <= 1 -> clampPct m == 100 * m)
  /\ (1 < m -> clampPct m == 100)
  /\ (m < -1 -> clampPct m == -100).
Proof.
  unfold clampPct.
  destruct (Q.min_spec 1 m) as [[H1 H2] | [H1 H2]];
  destruct (Q.max_spec (-1) (Qmin 1 m)) as [[H3 H4] | [H3 H4]];
  repeat split; intros; lra.
Qed.

Lemma cliff_markers_shift (earnings : list Q) : forall m mtr i,
  cliff_markers_from earnings (m :: mtr) (S i) = cliff_markers_from earnings mtr i.
Proof.
  induction earnings as [| x rest IH]; intros m mtr i; simpl; [reflexivity |].
  rewrite IH. reflexivity.
Qed.

(** When [earnings] and [mtr] have the same length, there are exactly
    [cliffCount] cliff markers. *)
Theorem cliffMarkers_count (earnings mtr : list Q) :
  length earnings = length mtr ->
  length (cliffMarkers earnings mtr) = cliffCount mtr.
Proof.
  unfold cliffMarkers, cliffCount. revert mtr.
  induction earnings as [| x rest IH]; intros mtr Hlen;
    destruct mtr as [| m mtr]; simpl in Hlen; try discriminate;
    [reflexivity |].
  simpl. rewrite cliff_markers_shift.
  destruct (Qlt_bool 1 m); simpl; rewrite IH by lia; reflexivity.
Qed.

Lemma nth_error_skipn_cons (l : list Q) : forall i x,
  nth_error l i = Some x -> skipn i l = x :: skipn (S i) l.
Proof.
  induction l as [| y l IH]; intros i x H; destruct i as [| i];
    simpl in *; try discriminate.
  - inversion H; reflexivity.
  - apply IH. exact H.
Qed.

Lemma cliff_scan_markers (earnings mtr : list Q) (n : nat) : forall i,
  (i + n = length earnings)%nat ->
  map snd (cliff_scan_from earnings mtr i n)
  = cliff_markers_from (skipn i earnings) mtr i.
Proof.
  induction n as [| n IH]; intros i Hn.
  - rewrite skipn_all2 by lia. reflexivity.
  - destruct (nth_error earnings i) as [x |] eqn:Ex.
    2: { apply nth_error_None in Ex. lia. }
    rewrite (nth_error_skipn_cons earnings i x Ex). simpl.
    rewrite Ex, map_app, IH by lia.
    destruct (nth_error mtr i) as [m |]; [destruct (Qlt_bool 1 m) |];
      reflexivity.
Qed.

(** The cliff markers are the labelled cliff points plus, possibly, the
    point at index 0, which only the labelling loop skips. *)
Theorem cliffMarkers_labels (earnings mtr : list Q) :
  cliffMarkers earnings mtr
  = match earnings, mtr with
    | x :: _, m :: _ => if Qlt_bool 1 m then [x] else []
    | _, _ => []
    end ++ map snd (cliffLabels earnings mtr).
Proof.
  unfold cliffMarkers, cliffLabels.
  destruct earnings as [| x rest]; [reflexivity |].
  rewrite (cliff_scan_markers (x :: rest) mtr) by (simpl; lia).
  simpl skipn. simpl cliff_markers_from.
  destruct mtr as [| m mtr]; simpl; reflexivity.
Qed.

Lemma max_drop_from_spec (rest : list Q) : forall prev mx,
  let res := max_drop_from prev rest mx in
  mx <= res
  /\ (forall i a b, nth_error (prev :: rest) i = Some a ->
        nth_error (prev :: rest) (S i) = Some b -> a - b <= res)
  /\ (res = mx \/ exists i a b, nth_error (prev :: rest) i = Some a
        /\ nth_error (prev :: rest) (S i) = Some b /\ res = a - b).
Proof.
  induction rest as [| x rest IH]; intros prev mx res; subst res; simpl.
  - split; [lra |]. split; [| left; reflexivity].
    intros i a b _ Hb. destruct i as [| [| i]]; simpl in Hb; discriminate.
  - set (mx' := if Qlt_bool mx (prev - x) then prev - x else mx).
    assert (Hm : mx <= mx' /\ prev - x <= mx').
    { unfold mx'. destruct (Qlt_bool mx (prev - x)) eqn:E.
      - apply Qlt_bool_iff in E. split; lra.
      - split; [lra |]. apply Qnot_lt_le. intro H.
        apply Qlt_bool_iff in H. congruence. }
    destruct (IH x mx') as [I1 [I2 I3]].
    split; [lra |]. split.
    + intros [| i] a b Ha Hb.
      * simpl in Ha, Hb. inversion Ha; inversion Hb; subst. lra.
      * exact (I2 i a b Ha Hb).
    + destruct I3 as [E | [i [a [b [Ha [Hb E]]]]]].
      * rewrite E. unfold mx'. destruct (Qlt_bool mx (prev - x)).
        -- right. exists 0%nat, prev, x. auto.
        -- left. reflexivity.
      * right. exists (S i), a, b. auto.
Qed.

(** [TheReform]'s drop loop returns the largest one-step drop
    [a[i-1] - a[i]], or [0] when no step drops (and for arrays with fewer
    than two entries). *)
Theorem maxDrop_spec (a : list Q) :
  0 <= maxDrop a
  /\ (forall i x y, nth_error a i = Some x -> nth_error a (S i) = Some y ->
        x - y <= maxDrop a)
  /\ (maxDrop a = 0 \/ exists i x y, nth_error a i = Some x
        /\ nth_error a (S i) = Some y /\ maxDrop a = x - y).
Proof.
  destruct a as [| p rest].
  - simpl. split; [lra |]. split; [| left; reflexivity].
    intros i x y Hx. destruct i; discriminate.
  - exact (max_drop_from_spec rest p 0).
Qed.

Lemma ext_total_loop_snoc (future : Z -> option (list Q)) (year : Z) (idx : nat)
  (n : nat) : forall t total,
  ext_total_loop future year idx t (S n) total
  = let total' := ext_total_loop future year idx t n total in
    match future (year + Z.of_nat (t + n))%Z with
    | Some yearSnap =>
        match total', nth_error yearSnap idx with
        | Some a, Some v => Some (a + v)
        | _, _ => None
        end
    | None => total'
    end.
Proof.
  induction n as [| n IH]; intros t total.
  - simpl. rewrite Nat.add_0_r. reflexivity.
  - change (ext_total_loop future year idx t (S (S n)) total)
      with (ext_total_loop future year idx (S t) (S n)
              (match future (year + Z.of_nat t)%Z with
               | Some yearSnap =>
                   match total, nth_error yearSnap idx with
                   | Some a, Some v => Some (a + v)
                   | _, _ => None
                   end
               | None => total
               end)).
    rewrite IH. replace (S t + n)%nat with (t + S n)%nat by lia.
    reflexivity.
Qed.

Lemma mathRound_mono (x y : Q) : x <= y -> mathRound x <= mathRound y.
Proof.
  intro H. unfold mathRound. rewrite <- Zle_Qle.
  apply Qfloor_resp_le. lra.
Qed.

(** Extending SNAP by one more period never lowers the rounded extended
    total, provided the next year's SNAP array (if that year is present)
    has a nonnegative entry at this index. *)
Theorem extTotalAt_mono (future : Z -> option (list Q)) (year : Z)
  (ext : nat) (s : Q) (idx : nat) (a : Q) :
  extTotalAt future year ext s idx = Some a ->
  (forall ys, future (year + Z.of_nat (S ext))%Z = Some ys ->
     exists v, nth_error ys idx = Some v /\ 0 <= v) ->
  exists b, extTotalAt future year (S ext) s idx = Some b /\ a <= b.
Proof.
  unfold extTotalAt. intros Ha Hnext.
  destruct (ext_total_loop future year idx 1 ext (Some s)) as [tot |] eqn:Et;
    simpl in Ha; [| discriminate].
  injection Ha as <-.
  rewrite ext_total_loop_snoc. cbv zeta. rewrite Et.
  change (1 + ext)%nat with (S ext).
  destruct (future (year + Z.of_nat (S ext))%Z) as [ys |] eqn:Ey.
  - destruct (Hnext ys eq_refl) as [v [Hv Hv0]]. rewrite Hv. simpl.
    eexists. split; [reflexivity |].
    unfold Qdiv. apply Qmult_le_compat_r; [| apply Qinv_le_0_compat; lra].
    apply mathRound_mono. lra.
  - simpl. eexists. split; [reflexivity | lra].
Qed.


Lemma cliff_mtr_spike_witness :
  mtr_at 5000 30000 (1#2) cliff 29950 == 5000
  /\ mtr_at 5000 30000 (1#2) cliff 35000 == 0.
Proof.
  destruct (cliff_mtr_spike 5000 30000 (1#2) 29950) as [H1 _].
  destruct (cliff_mtr_spike 5000 30000 (1#2) 35000) as [_ H2].
  split; [apply H1; qdec | apply H2; left; qdec].
Defined.

Lemma phase_out_mtr_rate_witness :
  mtr_at 5000 30000 (1#2) phase_out 32000 == 100 * (1#2)
  /\ mtr_at 5000 30000 (1#2) phase_out 20000 == 0
  /\ mtr_at 5000 30000 (1#2) phase_out 45000 == 0.
Proof.
  destruct (phase_out_mtr_rate 5000 30000 (1#2) 32000 ltac:(qdec) ltac:(qdec))
    as [H1 _].
  destruct (phase_out_mtr_rate 5000 30000 (1#2) 20000 ltac:(qdec) ltac:(qdec))
    as [_ [H2 _]].
  destruct (phase_out_mtr_rate 5000 30000 (1#2) 45000 ltac:(qdec) ltac:(qdec))
    as [_ [_ H3]].
  split; [apply H1; qdec | split; [apply H2; qdec | apply H3; qdec]].
Defined.

Lemma cliff_integral_witness :
  exists v,
    computeIntegral (incomeGrid 0 200 401)
      (computeMtr (incomeGrid 0 200 401) 5000 30000 (1#2) cliff) = Some v
    /\ v == 200 / 100 * 5000.
Proof. apply (cliff_integral 5000 30000 (1#2) 200 150 401); [qdec | lia | qdec]. Defined.

Lemma entry_cliff_is_drop_witness :
  computePvBenefits 20000 5000 30000 3 (5#100) true
    - computePvBenefits 40000 5000 30000 3 (5#100) true
    == extCliffVal 5000 (5#100) 3
  /\ computePvBenefits 20000 5000 30000 3 (5#100) false
    - computePvBenefits 40000 5000 30000 3 (5#100) false == 5000.
Proof. apply (entry_cliff_is_drop 20000 40000 5000 30000 (5#100) 3); qdec. Defined.

Lemma extCliffVal_bounds_witness :
  5000 <= extCliffVal 5000 (5#100) 3
  /\ extCliffVal 5000 (5#100) 3 <= Qnat (1 + 3) * 5000.
Proof. apply (extCliffVal_bounds 5000 (5#100) 3); qdec. Defined.

Lemma clampPct_props_witness :
  clampPct (3#10) == 100 * (3#10) /\ clampPct 5 == 100 /\ clampPct (-2) == -100.
Proof.
  destruct (clampPct_props (3#10)) as [_ [_ [H1 _]]].
  destruct (clampPct_props 5) as [_ [_ [_ [H2 _]]]].
  destruct (clampPct_props (-2)) as [_ [_ [_ [_ H3]]]].
  split; [apply H1; qdec | split; [apply H2; qdec | apply H3; qdec]].
Defined.

Lemma cliffMarkers_count_witness :
  length (cliffMarkers [0; 100; 200] [0; 3#2; 2]) = cliffCount [0; 3#2; 2].
Proof. apply (cliffMarkers_count [0; 100; 200] [0; 3#2; 2]). reflexivity. Defined.

Lemma extTotalAt_mono_witness :
  exists b,
    extTotalAt (fun y => if Z.eqb y 2026 then Some [100; 50] else None)
      2025%Z 1 10 1 = Some b
    /\ mathRound (10 * 100) / 100 <= b.
Proof.
  apply (extTotalAt_mono (fun y => if Z.eqb y 2026 then Some [100; 50] else None)
           2025%Z 0 10 1 (mathRound (10 * 100) / 100)).
  - reflexivity.
  - intros ys H. vm_compute in H. injection H as <-.
    exists 50. split; [reflexivity | qdec].
Defined.
